(** * Panoramic view registry: [ai_filmmaking/environment_manager.py]

    A shallow embedding of the class [EnvironmentManager] and the
    properties of its angular geometry.

    Modelling conventions.
    - Python numbers (the angles, depths and fields of view are [int] or
      [float] values) are embedded as exact rationals [Q].  The arithmetic
      of the source ([/], [-], [+], [%], [int]) is carried out exactly;
      the rounding of binary64 floats is outside this model.
    - The two instance dictionaries are insertion-ordered association
      lists, as Python's [dict] is: assigning to a key that is present
      keeps its place, assigning to a new key appends it.
    - An image is a grid of RGB pixels stored column by column; the three
      operations of the imaging library that the source calls ([crop],
      [Image.new], [paste]) are modelled on that grid.
    - [print] and the files written by [extract_camera_view] are not part
      of the state. *)

From Stdlib Require Import QArith Qround Qabs ZArith List String Bool Lia Lqa.
Import ListNotations.

Local Open Scope Q_scope.

(* ================================================================= *)
(** ** Python arithmetic on exact numbers *)

Module Py.

(** [x % y]: the remainder of floor division, [x == (x // y) * y + x % y]. *)
Definition floordiv (x y : Q) : Z := Qfloor (x / y).

Definition mod_ (x y : Q) : Q := x - y * inject_Z (floordiv x y).

(** [int(x)]: truncation toward zero. *)
Definition int (x : Q) : Z := Z.quot (Qnum x) (Zpos (Qden x)).

(** The closed comparison [a <= b] as a boolean. *)
Definition le (a b : Q) : bool := Qle_bool a b.

(** [a >= b]. *)
Definition ge (a b : Q) : bool := Qle_bool b a.

(** [a < b] on integers. *)
Definition ltz (a b : Z) : bool := Z.ltb a b.

End Py.

Notation "x %% y" := (Py.mod_ x y) (at level 40, left associativity) : Q_scope.

(* ================================================================= *)
(** ** Insertion-ordered dictionaries with string keys *)

Module Dict.

Section Defs.
Context {V : Type}.

Definition t := list (string * V).

Definition empty : t := [].

(** [d[k]] / [d.get(k)] *)
Fixpoint get (k : string) (d : t) : option V :=
  match d with
  | [] => None
  | (k', v) :: rest => if String.eqb k k' then Some v else get k rest
  end.

(** [k in d] *)
Definition mem (k : string) (d : t) : bool :=
  match get k d with Some _ => true | None => false end.

(** [d[k] = v]: overwrite in place, or append a new key. *)
Fixpoint set (k : string) (v : V) (d : t) : t :=
  match d with
  | [] => [(k, v)]
  | (k', v') :: rest =>
      if String.eqb k k' then (k', v) :: rest else (k', v') :: set k v rest
  end.

(** [d.items()] *)
Definition items (d : t) : list (string * V) := d.

Definition keys (d : t) : list string := map fst d.
End Defs.

Arguments t : clear implicits.

End Dict.

(* ================================================================= *)
(** ** The registry *)

(** The value stored under a character name:
    [{"angle": ..., "depth": ...}]. *)
Record Position := mkPosition { angle : Q; depth : Q }.

(** The value stored under a scene id:
    [{"angle": ..., "fov": ..., "visible_range": (start, end)}]. *)
Record Camera := mkCamera {
  cam_angle : Q;
  fov : Q;
  visible_range : Q * Q
}.

Record EnvironmentManager := mkEnv {
  character_positions : Dict.t Position;
  camera_angles : Dict.t Camera
}.

(** [__init__] *)
Definition init : EnvironmentManager :=
  {| character_positions := Dict.empty; camera_angles := Dict.empty |}.

Definition default_depth : Q := 1.
Definition default_field_of_view : Q := 60.

Definition register_character_position
    (self : EnvironmentManager) (character_name : string)
    (angle_degrees : Q) (depth : Q) : EnvironmentManager :=
  {| character_positions :=
       Dict.set character_name
         {| angle := angle_degrees %% 360; depth := depth |}
         (character_positions self);
     camera_angles := camera_angles self |}.

Definition register_camera_angle
    (self : EnvironmentManager) (scene_id : string)
    (angle : Q) (field_of_view : Q) : EnvironmentManager :=
  let visible_start := (angle - field_of_view / 2) %% 360 in
  let visible_end := (angle + field_of_view / 2) %% 360 in
  {| character_positions := character_positions self;
     camera_angles :=
       Dict.set scene_id
         {| cam_angle := angle %% 360;
            fov := field_of_view;
            visible_range := (visible_start, visible_end) |}
         (camera_angles self) |}.

(** The membership test in the body of the loop of
    [get_visible_characters]. *)
Definition in_view (start_angle end_angle char_angle : Q) : bool :=
  if Py.le start_angle end_angle then
    Py.le start_angle char_angle && Py.le char_angle end_angle
  else
    Py.ge char_angle start_angle || Py.le char_angle end_angle.

(** One iteration of the loop: [visible_chars.append(char_name)] when the
    test succeeds. *)
Definition visit (start_angle end_angle : Q)
    (visible_chars : list string) (item : string * Position) : list string :=
  let (char_name, position) := item in
  let char_angle := angle position in
  if in_view start_angle end_angle char_angle
  then visible_chars ++ [char_name]
  else visible_chars.

Definition get_visible_characters
    (self : EnvironmentManager) (scene_id : string) : list string :=
  if negb (Dict.mem scene_id (camera_angles self)) then []
  else
    match Dict.get scene_id (camera_angles self) with
    | None => []
    | Some camera =>
        let (start_angle, end_angle) := visible_range camera in
        fold_left (visit start_angle end_angle)
                  (Dict.items (character_positions self)) []
    end.

(** What a query of the visible range of a scene id finds:
    [camera_angles[scene_id]["visible_range"]], if the id is there. *)
Definition visible_range_of (self : EnvironmentManager) (scene_id : string)
    : option (Q * Q) :=
  option_map visible_range (Dict.get scene_id (camera_angles self)).

(** A history of registration calls, and the manager it leads to. *)
Inductive call :=
| RegisterCharacter (character_name : string) (angle_degrees depth : Q)
| RegisterCamera (scene_id : string) (angle field_of_view : Q).

Definition perform (self : EnvironmentManager) (c : call) : EnvironmentManager :=
  match c with
  | RegisterCharacter n a d => register_character_position self n a d
  | RegisterCamera s a f => register_camera_angle self s a f
  end.

Definition run (calls : list call) : EnvironmentManager :=
  fold_left perform calls init.

(** What is left of the character dictionary once the depths are erased:
    the names, in order, with their angles. *)
Definition name_angles (d : Dict.t Position) : list (string * Q) :=
  map (fun item => (fst item, angle (snd item))) d.

(** An angle of the half-open interval [[0, 360)]. *)
Definition normalized (a : Q) : Prop := 0 <= a /\ a < 360.

(** The angles of an item of [camera_angles] are normalized. *)
Definition camera_ok (item : string * Camera) : Prop :=
  normalized (cam_angle (snd item)) /\
  normalized (fst (visible_range (snd item))) /\
  normalized (snd (visible_range (snd item))).

(** The angle of an item of [character_positions] is normalized. *)
Definition position_ok (item : string * Position) : Prop :=
  normalized (angle (snd item)).

(* ================================================================= *)
(** ** Images *)

Inductive result (A : Type) :=
| Ok (value : A)
| ValueError (message : string).

Arguments Ok {A} value.
Arguments ValueError {A} message.

Definition bind {A B : Type} (r : result A) (k : A -> result B) : result B :=
  match r with
  | Ok a => k a
  | ValueError m => ValueError m
  end.

Notation "x <- r ;; k" := (bind r (fun x => k))
  (at level 61, r at next level, right associativity).

Module Img.

(** A pixel of mode ['RGB']. *)
Definition pixel : Type := Z * Z * Z.

Definition black : pixel := (0, 0, 0)%Z.

(** The grid, column by column; every column holds [height] pixels. *)
Record t := mk { height_ : nat; cols : list (list pixel) }.

Definition width (im : t) : Z := Z.of_nat (List.length (cols im)).
Definition height (im : t) : Z := Z.of_nat (height_ im).

(** [im.size] *)
Definition size (im : t) : Z * Z := (width im, height im).

Definition wf (im : t) : Prop :=
  Forall (fun c => List.length c = height_ im) (cols im).

(** The pixel at column [x], row [y]; black outside the grid. *)
Definition sample (im : t) (x y : Z) : pixel :=
  if ((0 <=? x) && (0 <=? y))%Z
  then nth (Z.to_nat y) (nth (Z.to_nat x) (cols im) []) black
  else black.

Definition column (f : Z -> Z -> pixel) (h : nat) (x : nat) : list pixel :=
  map (fun y => f (Z.of_nat x) (Z.of_nat y)) (seq 0 h).

(** The image of size [(w, h)] whose pixel [(x, y)] is [f x y]. *)
Definition tabulate (w h : Z) (f : Z -> Z -> pixel) : t :=
  {| height_ := Z.to_nat h;
     cols := map (column f (Z.to_nat h)) (seq 0 (Z.to_nat w)) |}.

(** [im.crop((x0, y0, x1, y1))], the box being (left, upper, right,
    lower): a new image of size [(x1 - x0, y1 - y0)]; the part of the box that lies outside
    [im] is black.  A box with [x1 < x0] or [y1 < y0] is refused. *)
Definition crop (im : t) (box : Z * Z * Z * Z) : result t :=
  let '(x0, y0, x1, y1) := box in
  if (x1 <? x0)%Z then
    ValueError "Coordinate 'right' is less than 'left'"
  else if (y1 <? y0)%Z then
    ValueError "Coordinate 'lower' is less than 'upper'"
  else
    Ok (tabulate (x1 - x0) (y1 - y0)
          (fun x y => sample im (x0 + x) (y0 + y))).

(** [Image.new('RGB', (w, h))]: a black image. *)
Definition new (sz : Z * Z) : t :=
  tabulate (fst sz) (snd sz) (fun _ _ => black).

(** [dst.paste(src, (x0, y0))]: [src] is written over [dst] with its
    upper left corner at [(x0, y0)]; [dst] keeps its size. *)
Definition paste (dst src : t) (at_ : Z * Z) : t :=
  let (x0, y0) := at_ in
  tabulate (width dst) (height dst)
    (fun x y =>
       if ((x0 <=? x) && (x <? x0 + width src)
           && (y0 <=? y) && (y <? y0 + height src))%Z
       then sample src (x - x0) (y - y0)
       else sample dst x y).

End Img.

(** The pixel column of an angle on a panorama of the given width:
    [int((angle / 360) * width)]. *)
Definition to_px (angle : Q) (width : Z) : Z :=
  Py.int ((angle / 360) * inject_Z width).

Definition _crop_panorama_view (panorama : Img.t) (camera : Camera)
    : result Img.t :=
  let (width, height) := Img.size panorama in
  let (start_angle, end_angle) := visible_range camera in
  let start_px := to_px start_angle width in
  let end_px := to_px end_angle width in
  if Py.ltz end_px start_px then
    left_part <- Img.crop panorama (start_px, 0, width, height)%Z ;;
    right_part <- Img.crop panorama (0, 0, end_px, height)%Z ;;
    let combined_width := (Img.width left_part + Img.width right_part)%Z in
    let combined := Img.new (combined_width, height) in
    let combined := Img.paste combined left_part (0, 0)%Z in
    let combined := Img.paste combined right_part (Img.width left_part, 0%Z) in
    Ok combined
  else
    Img.crop panorama (start_px, 0, end_px, height)%Z.

(** [extract_camera_view], with the panorama already opened and the
    extracted view returned instead of saved. *)
Definition extract_camera_view (self : EnvironmentManager)
    (panorama : Img.t) (scene_id : string) : result Img.t :=
  if negb (Dict.mem scene_id (camera_angles self)) then
    ValueError ("Camera angle not registered for scene: " ++ scene_id)%string
  else
    match Dict.get scene_id (camera_angles self) with
    | None => ValueError ("Camera angle not registered for scene: " ++ scene_id)%string
    | Some camera => _crop_panorama_view panorama camera
    end.

(** The pixel bounds [(start_px, end_px)] that [_crop_panorama_view]
    computes for a camera on a panorama of the given width. *)
Definition pixel_bounds (camera : Camera) (width : Z) : Z * Z :=
  (to_px (fst (visible_range camera)) width,
   to_px (snd (visible_range camera)) width).

(* ================================================================= *)
(** ** Notions taken from the specification *)

(** Rounding to the nearest integer, as the specification words the
    conversion of an angle to a pixel column: ties go to the even
    neighbour, as Python's [round] does. *)
Definition round_nearest (x : Q) : Z :=
  let n := Qfloor x in
  let r := x - inject_Z n in
  if Qle_bool r (1 # 2) then
    if Qle_bool (1 # 2) r then (if Z.even n then n else n + 1)%Z else n
  else (n + 1)%Z.

(** [n] is an integer nearest to [x], whatever the rule for ties. *)
Definition nearest_integer (x : Q) (n : Z) : Prop :=
  forall m : Z, Qabs (x - inject_Z n) <= Qabs (x - inject_Z m).

(* ================================================================= *)
(** ** Sessions *)

(** The registrations of [test_environment_manager]
    (test_ai_filmmaking.py). *)
Definition test_calls : list call :=
  [ RegisterCharacter "Alice" 180 (6 # 10);
    RegisterCharacter "Bob" 0 (8 # 10);
    RegisterCamera "scene_1" 0 90;
    RegisterCamera "scene_2" 180 60 ].

(** The registrations of the restaurant scene (orchestrator.py). *)
Definition restaurant_calls : list call :=
  [ RegisterCharacter "Alice" 180 (6 # 10);
    RegisterCharacter "Bob" 0 (8 # 10);
    RegisterCamera "scene_1_establishing" 0 90;
    RegisterCamera "scene_2_ots_bob" 350 90;
    RegisterCamera "scene_3_closeup_alice" 180 40;
    RegisterCamera "scene_4_hand_ring" 0 40;
    RegisterCamera "scene_5_kiss" 90 60 ].

(** The same registrations with other depths. *)
Definition restaurant_calls_flat : list call :=
  [ RegisterCharacter "Alice" 180 0;
    RegisterCharacter "Bob" 0 1;
    RegisterCamera "scene_1_establishing" 0 90;
    RegisterCamera "scene_2_ots_bob" 350 90;
    RegisterCamera "scene_3_closeup_alice" 180 40;
    RegisterCamera "scene_4_hand_ring" 0 40;
    RegisterCamera "scene_5_kiss" 90 60 ].

(** The restaurant scene with one more camera, of field of view 360. *)
Definition full_circle_calls : list call :=
  restaurant_calls ++ [ RegisterCamera "full_circle" 0 360 ].

(** A camera whose range crosses the seam: [(324, 18)]. *)
Definition seam_calls : list call := [ RegisterCamera "seam" 351 54 ].

(** A camera whose range starts at 2 degrees. *)
Definition narrow_calls : list call := [ RegisterCamera "narrow" 32 60 ].

(** The records these two registrations store. *)
Definition seam_camera : Camera :=
  mkCamera (351 %% 360) 54 ((351 - 54 / 2) %% 360, (351 + 54 / 2) %% 360).

Definition narrow_camera : Camera :=
  mkCamera (32 %% 360) 60 ((32 - 60 / 2) %% 360, (32 + 60 / 2) %% 360).

(** A panorama of 1000 columns and 2 rows whose pixels name their
    place. *)
Definition numbered_panorama : Img.t :=
  Img.tabulate 1000 2 (fun x y => (x mod 256, x / 256, y)%Z).

(** A panorama of 100 columns and 1 row. *)
Definition small_panorama : Img.t :=
  Img.tabulate 100 1 (fun x y => (x, y, 0)%Z).

(* ================================================================= *)
(** ** Notions for the further properties *)

(** The direction [b] lies within half the field of view [f] of the
    direction [a] on the circle: some turn of [b] is at most [f / 2] away
    from [a]. *)
Definition within_half_fov (a f b : Q) : Prop :=
  exists k : Z,
    - (f / 2) <= b - a + 360 * inject_Z k /\
    b - a + 360 * inject_Z k <= f / 2.

(** [l1] is [l2] with some elements left out, in the same order. *)
Inductive subsequence {A : Type} : list A -> list A -> Prop :=
| subsequence_nil : subsequence [] []
| subsequence_skip x l1 l2 : subsequence l1 l2 -> subsequence l1 (x :: l2)
| subsequence_keep x l1 l2 :
    subsequence l1 l2 -> subsequence (x :: l1) (x :: l2).

(** A camera whose field of view is one degree short of the full
    circle, and the record its registration stores. *)
Definition near_full_calls : list call := [ RegisterCamera "near_full" 1 359 ].

Definition near_full_camera : Camera :=
  mkCamera (1 %% 360) 359 ((1 - 359 / 2) %% 360, (1 + 359 / 2) %% 360).

(** The restaurant scene with one more camera, of field of view -90. *)
Definition backward_calls : list call :=
  restaurant_calls ++ [ RegisterCamera "backward" 0 (-90) ].

(* ================================================================= *)
(** ** Facts about the arithmetic *)

Section Arithmetic.

Lemma Qfloor_unique (x : Q) (n : Z) :
  inject_Z n <= x -> x < inject_Z (n + 1) -> Qfloor x = n.
Proof.
  intros Hlo Hhi.
  pose proof (Qfloor_le x) as Hf.
  pose proof (Qlt_floor x) as Hc.
  assert (H1 : inject_Z n < inject_Z (Qfloor x + 1)) by lra.
  assert (H2 : inject_Z (Qfloor x) < inject_Z (n + 1)) by lra.
  rewrite <- Zlt_Qlt in H1, H2. lia.
Qed.

Lemma Qfloor_shift (x : Q) (k : Z) :
  Qfloor (x + inject_Z k) = (Qfloor x + k)%Z.
Proof.
  apply Qfloor_unique.
  - rewrite inject_Z_plus. pose proof (Qfloor_le x). lra.
  - replace (Qfloor x + k + 1)%Z with ((Qfloor x + 1) + k)%Z by lia.
    rewrite inject_Z_plus. pose proof (Qlt_floor x). lra.
Qed.

Global Instance mod_comp : Proper (Qeq ==> Qeq ==> Qeq) Py.mod_.
Proof.
  intros x x' Hx y y' Hy. unfold Py.mod_, Py.floordiv.
  assert (E : Qfloor (x / y) = Qfloor (x' / y'))
    by (apply Qfloor_comp; rewrite Hx, Hy; reflexivity).
  rewrite E, Hx, Hy. reflexivity.
Qed.

Lemma mod_decompose (x y : Q) :
  x == x %% y + y * inject_Z (Py.floordiv x y).
Proof. unfold Py.mod_. ring. Qed.

Lemma mod_range (x y : Q) : 0 < y -> 0 <= x %% y /\ x %% y < y.
Proof.
  intros Hy. unfold Py.mod_, Py.floordiv.
  pose proof (Qfloor_le (x / y)) as Hlo.
  pose proof (Qlt_floor (x / y)) as Hhi.
  rewrite inject_Z_plus in Hhi.
  assert (Hxy : x == y * (x / y)) by (field; lra).
  set (q := x / y) in *. set (n := inject_Z (Qfloor q)) in *.
  change (inject_Z 1) with 1 in Hhi.
  split.
  - assert (0 <= y * (q - n)) by (apply Qmult_le_0_compat; lra).
    lra.
  - assert (0 < y * (n + 1 - q)) by (apply Qmult_lt_0_compat; lra).
    lra.
Qed.

Lemma mod_shift (x y : Q) (k : Z) :
  0 < y -> (x + y * inject_Z k) %% y == x %% y.
Proof.
  intros Hy. unfold Py.mod_, Py.floordiv.
  assert (E : (x + y * inject_Z k) / y == x / y + inject_Z k)
    by (field; lra).
  rewrite (Qfloor_comp _ _ E), Qfloor_shift, inject_Z_plus. ring.
Qed.

Lemma mod_unique (x y r : Q) (k : Z) :
  0 < y -> 0 <= r -> r < y -> x == r + y * inject_Z k -> x %% y == r.
Proof.
  intros Hy Hr0 Hr1 Hx.
  rewrite Hx, mod_shift by assumption.
  unfold Py.mod_, Py.floordiv.
  assert (E : Qfloor (r / y) = 0%Z).
  { apply Qfloor_unique.
    - change (inject_Z 0) with 0. apply Qle_shift_div_l; lra.
    - change (inject_Z (0 + 1)) with 1. apply Qlt_shift_div_r; lra. }
  rewrite E. change (inject_Z 0) with 0. ring.
Qed.

(** The circular width of a range centred on [a]. *)
Lemma mod_width (a f y : Q) :
  0 < y ->
  ((a + f / 2) %% y - (a - f / 2) %% y) %% y == f %% y.
Proof.
  intros Hy.
  set (k1 := Py.floordiv (a - f / 2) y).
  set (k2 := Py.floordiv (a + f / 2) y).
  assert (E : (a + f / 2) %% y - (a - f / 2) %% y
              == f + y * inject_Z (k1 - k2)).
  { unfold Py.mod_. fold k1 k2. unfold Z.sub.
    rewrite inject_Z_plus, inject_Z_opp. field. }
  rewrite E. apply mod_shift. assumption.
Qed.

Lemma int_nonneg (x : Q) : 0 <= x -> Py.int x = Qfloor x.
Proof.
  intros Hx. unfold Py.int, Qfloor. destruct x as [n d]; simpl.
  apply Z.quot_div_nonneg; [| lia].
  unfold Qle in Hx; simpl in Hx. lia.
Qed.

Lemma to_px_floor (a : Q) (w : Z) :
  0 <= a -> (0 <= w)%Z -> to_px a w = Qfloor (a / 360 * inject_Z w).
Proof.
  intros Ha Hw. unfold to_px. apply int_nonneg.
  apply Qmult_le_0_compat.
  - apply Qle_shift_div_l; lra.
  - change 0 with (inject_Z 0). rewrite <- Zle_Qle. assumption.
Qed.

Lemma to_px_range (a : Q) (w : Z) :
  0 <= a -> a < 360 -> (0 <= w)%Z -> (0 <= to_px a w <= w)%Z.
Proof.
  intros Ha0 Ha1 Hw. rewrite to_px_floor by assumption.
  assert (Hw' : 0 <= inject_Z w)
    by (change 0 with (inject_Z 0); rewrite <- Zle_Qle; assumption).
  assert (Hq0 : 0 <= a / 360) by (apply Qle_shift_div_l; lra).
  assert (Hq1 : a / 360 <= 1) by (apply Qle_shift_div_r; lra).
  split.
  - change 0%Z with (Qfloor 0). apply Qfloor_resp_le.
    apply Qmult_le_0_compat; assumption.
  - rewrite <- (Qfloor_Z w) at 2. apply Qfloor_resp_le.
    assert (0 <= (1 - a / 360) * inject_Z w)
      by (apply Qmult_le_0_compat; lra).
    lra.
Qed.

End Arithmetic.

(* ================================================================= *)
(** ** Facts about dictionaries *)

Module DictFacts.

Section Facts.
Context {V : Type}.
Implicit Types (d : Dict.t V) (k : string) (v : V).

Lemma get_set_eq k v d : Dict.get k (Dict.set k v d) = Some v.
Proof.
  induction d as [| [k' v'] d IH]; simpl.
  - now rewrite String.eqb_refl.
  - destruct (String.eqb k k') eqn:E; simpl; rewrite E; auto.
Qed.

Lemma get_set_ne k k' v d :
  k' <> k -> Dict.get k' (Dict.set k v d) = Dict.get k' d.
Proof.
  intros Hne. induction d as [| [k0 v0] d IH]; simpl.
  - apply String.eqb_neq in Hne. now rewrite Hne.
  - destruct (String.eqb k k0) eqn:E; simpl.
    + apply String.eqb_eq in E. subst k0.
      apply String.eqb_neq in Hne. now rewrite Hne.
    + now rewrite IH.
Qed.

(** Assigning twice to a key leaves only the second value, at the place
    the key already had. *)
Lemma set_set k v1 v2 d :
  Dict.set k v2 (Dict.set k v1 d) = Dict.set k v2 d.
Proof.
  induction d as [| [k' v'] d IH]; simpl.
  - now rewrite String.eqb_refl.
  - destruct (String.eqb k k') eqn:E; simpl; rewrite E; congruence.
Qed.

Lemma keys_set k v d k' :
  In k' (Dict.keys (Dict.set k v d)) <-> k' = k \/ In k' (Dict.keys d).
Proof.
  induction d as [| [k0 v0] d IH]; simpl.
  - intuition.
  - destruct (String.eqb k k0) eqn:E; simpl.
    + apply String.eqb_eq in E. subst. intuition.
    + rewrite IH. intuition.
Qed.

Lemma keys_set_nodup k v d :
  NoDup (Dict.keys d) -> NoDup (Dict.keys (Dict.set k v d)).
Proof.
  induction d as [| [k0 v0] d IH]; simpl; intros Hnd.
  - constructor; [intros [] | constructor].
  - inversion Hnd as [| ? ? Hnotin Hrest]; subst.
    destruct (String.eqb k k0) eqn:E; simpl.
    + constructor; assumption.
    + constructor; [| auto].
      rewrite keys_set. intros [-> | Hin]; [| contradiction].
      now rewrite String.eqb_refl in E.
Qed.

Lemma get_in k v d : Dict.get k d = Some v -> In (k, v) d.
Proof.
  induction d as [| [k0 v0] d IH]; simpl; [discriminate |].
  destruct (String.eqb k k0) eqn:E.
  - apply String.eqb_eq in E. intros [= ->]. subst. now left.
  - intros H. right. auto.
Qed.

Lemma in_get k v d :
  NoDup (Dict.keys d) -> In (k, v) d -> Dict.get k d = Some v.
Proof.
  induction d as [| [k0 v0] d IH]; simpl; intros Hnd Hin; [contradiction |].
  inversion Hnd as [| ? ? Hnotin Hrest]; subst.
  destruct Hin as [[= -> ->] | Hin].
  - now rewrite String.eqb_refl.
  - destruct (String.eqb k k0) eqn:E; [| auto].
    apply String.eqb_eq in E. subst k0.
    exfalso. apply Hnotin. change k with (fst (k, v)).
    apply in_map. assumption.
Qed.

Lemma mem_get k d :
  Dict.mem k d = true <-> exists v, Dict.get k d = Some v.
Proof.
  unfold Dict.mem. destruct (Dict.get k d).
  - split; eauto.
  - split; [discriminate | intros [? [=]]].
Qed.

Lemma mem_false k d : Dict.mem k d = false <-> Dict.get k d = None.
Proof.
  unfold Dict.mem. destruct (Dict.get k d); split; congruence.
Qed.
End Facts.

End DictFacts.

(* ================================================================= *)
(** ** Facts about the registry *)

Section Registry.

Lemma run_snoc (calls : list call) (c : call) :
  run (calls ++ [c]) = perform (run calls) c.
Proof. unfold run. now rewrite fold_left_app. Qed.

(** Every manager reached by registration calls satisfies [P], when
    [P] holds of the fresh manager and every call preserves it. *)
Lemma run_ind (P : EnvironmentManager -> Prop) :
  P init ->
  (forall self c, P self -> P (perform self c)) ->
  forall calls, P (run calls).
Proof.
  intros Hinit Hstep calls.
  induction calls as [| c calls IH] using rev_ind; [exact Hinit |].
  rewrite run_snoc. auto.
Qed.

Lemma run_keys_nodup (calls : list call) :
  NoDup (Dict.keys (character_positions (run calls))) /\
  NoDup (Dict.keys (camera_angles (run calls))).
Proof.
  apply run_ind with (P := fun self =>
    NoDup (Dict.keys (character_positions self)) /\
    NoDup (Dict.keys (camera_angles self))).
  - split; constructor.
  - intros self [n a d | s a f] [Hc Hk]; simpl; split;
      auto using DictFacts.keys_set_nodup.
Qed.

Lemma mod_360_normalized (a : Q) : normalized (a %% 360).
Proof. apply mod_range. reflexivity. Qed.

Lemma set_forall {V : Type} (P : string * V -> Prop) k v (d : Dict.t V) :
  (forall k', P (k', v)) -> Forall P d -> Forall P (Dict.set k v d).
Proof.
  intros Hv. induction d as [| [k0 v0] d IH]; simpl; intros Hall.
  - constructor; auto.
  - inversion Hall; subst.
    destruct (String.eqb k k0); constructor; auto.
Qed.

(** All the angles held by the registry are normalized. *)
Lemma run_normalized (calls : list call) :
  Forall position_ok (character_positions (run calls)) /\
  Forall camera_ok (camera_angles (run calls)).
Proof.
  apply run_ind with (P := fun self =>
    Forall position_ok (character_positions self) /\
    Forall camera_ok (camera_angles self)).
  - split; constructor.
  - intros self [n a d | s a f] [Hc Hk]; simpl; split; auto.
    + apply set_forall; [| assumption].
      intros k'. apply mod_360_normalized.
    + apply set_forall; [| assumption].
      intros k'. repeat split; apply mod_360_normalized.
Qed.

Lemma registered_camera_ok calls scene camera :
  Dict.get scene (camera_angles (run calls)) = Some camera ->
  camera_ok (scene, camera).
Proof.
  intros Hget. apply DictFacts.get_in in Hget.
  destruct (run_normalized calls) as [_ Hall].
  rewrite Forall_forall in Hall. auto.
Qed.

(** The loop of [get_visible_characters] is a filter on the items. *)
Lemma visit_fold s e (items : list (string * Position)) acc :
  fold_left (visit s e) items acc =
  acc ++ map fst (filter (fun it => in_view s e (angle (snd it))) items).
Proof.
  revert acc. induction items as [| [n p] items IH]; intros acc; simpl.
  - now rewrite app_nil_r.
  - rewrite IH. destruct (in_view s e (angle p)); simpl.
    + now rewrite <- app_assoc.
    + reflexivity.
Qed.

Lemma visible_registered self scene camera :
  Dict.get scene (camera_angles self) = Some camera ->
  get_visible_characters self scene =
  map fst (filter (fun it => in_view (fst (visible_range camera))
                                     (snd (visible_range camera))
                                     (angle (snd it)))
                  (character_positions self)).
Proof.
  intros Hget. unfold get_visible_characters, Dict.mem.
  rewrite Hget. simpl. destruct (visible_range camera) as [s e].
  now rewrite visit_fold.
Qed.

Lemma visible_unregistered self scene :
  Dict.get scene (camera_angles self) = None ->
  get_visible_characters self scene = [].
Proof.
  intros Hget. unfold get_visible_characters, Dict.mem. now rewrite Hget.
Qed.

Lemma visible_in self scene camera name position :
  NoDup (Dict.keys (character_positions self)) ->
  Dict.get scene (camera_angles self) = Some camera ->
  Dict.get name (character_positions self) = Some position ->
  In name (get_visible_characters self scene) <->
  in_view (fst (visible_range camera)) (snd (visible_range camera))
          (angle position) = true.
Proof.
  intros Hnd Hcam Hpos.
  rewrite (visible_registered _ _ _ Hcam), in_map_iff.
  split.
  - intros [[n p] [Hn Hin]]. simpl in Hn. subst n.
    apply filter_In in Hin. destruct Hin as [Hin Htest].
    apply (DictFacts.in_get _ _ _ Hnd) in Hin.
    rewrite Hpos in Hin. injection Hin as <-. exact Htest.
  - intros Htest. exists (name, position). split; [reflexivity |].
    apply filter_In. split; [| exact Htest].
    now apply DictFacts.get_in.
Qed.

Lemma in_view_nowrap s e a :
  s <= e -> in_view s e a = true <-> s <= a /\ a <= e.
Proof.
  intros Hse. unfold in_view, Py.le.
  apply Qle_bool_iff in Hse. rewrite Hse.
  rewrite andb_true_iff, !Qle_bool_iff. reflexivity.
Qed.

Lemma in_view_wrap s e a :
  e < s -> in_view s e a = true <-> s <= a \/ a <= e.
Proof.
  intros Hes. unfold in_view, Py.le, Py.ge.
  destruct (Qle_bool s e) eqn:E.
  - apply Qle_bool_iff in E. lra.
  - rewrite orb_true_iff, !Qle_bool_iff. reflexivity.
Qed.

End Registry.

(* ================================================================= *)
(** ** Facts about images *)

Module ImgFacts.

Local Open Scope Z_scope.

Lemma nth_tabulated {A : Type} (g : nat -> A) (n i : nat) (d : A) :
  (i < n)%nat -> nth i (map g (seq 0 n)) d = g i.
Proof.
  intros Hi.
  rewrite (nth_indep _ d (g 0%nat)) by (rewrite length_map, length_seq; lia).
  rewrite map_nth, seq_nth by lia. reflexivity.
Qed.

Lemma sample_nat (im : Img.t) (x y : nat) :
  Img.sample im (Z.of_nat x) (Z.of_nat y)
  = nth y (nth x (Img.cols im) []) Img.black.
Proof.
  unfold Img.sample.
  replace ((0 <=? Z.of_nat x) && (0 <=? Z.of_nat y))%bool with true
    by (symmetry; apply andb_true_iff; split; apply Z.leb_le; lia).
  now rewrite !Nat2Z.id.
Qed.

Lemma width_tabulate w h f : Img.width (Img.tabulate w h f) = Z.max 0 w.
Proof.
  unfold Img.width, Img.tabulate; simpl.
  rewrite length_map, length_seq. lia.
Qed.

Lemma height_tabulate w h f : Img.height (Img.tabulate w h f) = Z.max 0 h.
Proof. unfold Img.height, Img.tabulate; simpl. lia. Qed.

Lemma wf_tabulate w h f : Img.wf (Img.tabulate w h f).
Proof.
  unfold Img.wf, Img.tabulate; simpl. apply Forall_forall.
  intros c Hc. apply in_map_iff in Hc. destruct Hc as [x [<- _]].
  unfold Img.column. now rewrite length_map, length_seq.
Qed.

Lemma sample_tabulate w h f x y :
  0 <= x < w -> 0 <= y < h -> Img.sample (Img.tabulate w h f) x y = f x y.
Proof.
  intros Hx Hy.
  rewrite <- (Z2Nat.id x), <- (Z2Nat.id y) at 1 by lia.
  rewrite sample_nat. unfold Img.tabulate; simpl.
  rewrite nth_tabulated by lia. unfold Img.column.
  rewrite nth_tabulated by lia. now rewrite !Z2Nat.id by lia.
Qed.

(** Two images of the same size with the same pixels are the same. *)
Lemma ext (a b : Img.t) :
  Img.wf a -> Img.wf b ->
  Img.width a = Img.width b -> Img.height a = Img.height b ->
  (forall x y, 0 <= x < Img.width a -> 0 <= y < Img.height a ->
               Img.sample a x y = Img.sample b x y) ->
  a = b.
Proof.
  destruct a as [ha ca], b as [hb cb].
  unfold Img.wf, Img.width, Img.height; simpl.
  intros Wa Wb Hw Hh Hpx.
  assert (hb = ha) by lia. subst hb. f_equal.
  assert (Hlen : List.length ca = List.length cb) by lia.
  rewrite Forall_forall in Wa, Wb.
  apply (nth_ext _ _ [] []); [exact Hlen |].
  intros x Hx.
  assert (La : List.length (nth x ca []) = ha) by (apply Wa, nth_In; lia).
  assert (Lb : List.length (nth x cb []) = ha) by (apply Wb, nth_In; lia).
  apply (nth_ext _ _ Img.black Img.black); [congruence |].
  intros y Hy.
  specialize (Hpx (Z.of_nat x) (Z.of_nat y)).
  rewrite !sample_nat in Hpx. simpl in Hpx. apply Hpx; lia.
Qed.

(** The strip made of the columns from [s] on, followed by the first [e]
    columns. *)
Lemma wf_strip h (pc : list (list Img.pixel)) (s e : nat) :
  Img.wf (Img.mk h pc) -> Img.wf (Img.mk h (skipn s pc ++ firstn e pc)).
Proof.
  unfold Img.wf; simpl. rewrite !Forall_forall. intros Hwf c Hc.
  apply Hwf. apply in_app_or in Hc. destruct Hc as [Hc | Hc].
  - rewrite <- (firstn_skipn s pc). apply in_or_app. now right.
  - rewrite <- (firstn_skipn e pc). apply in_or_app. now left.
Qed.

Lemma sample_strip h (pc : list (list Img.pixel)) (s e : nat) x y :
  (s <= List.length pc)%nat -> (e <= List.length pc)%nat ->
  0 <= x < Z.of_nat (List.length pc - s + e) -> 0 <= y ->
  Img.sample (Img.mk h (skipn s pc ++ firstn e pc)) x y
  = if x <? Z.of_nat (List.length pc - s)
    then Img.sample (Img.mk h pc) (Z.of_nat s + x) y
    else Img.sample (Img.mk h pc) (x - Z.of_nat (List.length pc - s)) y.
Proof.
  intros Hs He Hx Hy.
  rewrite <- (Z2Nat.id x), <- (Z2Nat.id y) by lia.
  set (i := Z.to_nat x). set (j := Z.to_nat y).
  assert (Hi : (i < List.length pc - s + e)%nat) by lia.
  rewrite sample_nat; simpl.
  destruct (Z.ltb_spec (Z.of_nat i) (Z.of_nat (List.length pc - s))) as [Hlt | Hge].
  - replace (Z.of_nat s + Z.of_nat i) with (Z.of_nat (s + i)) by lia.
    rewrite sample_nat; simpl.
    rewrite app_nth1 by (rewrite length_skipn; lia).
    now rewrite nth_skipn.
  - replace (Z.of_nat i - Z.of_nat (List.length pc - s))
      with (Z.of_nat (i - (List.length pc - s))) by lia.
    rewrite sample_nat; simpl.
    rewrite app_nth2 by (rewrite length_skipn; lia).
    rewrite length_skipn, nth_firstn.
    destruct (Nat.ltb_spec (i - (List.length pc - s)) e); [reflexivity | lia].
Qed.

(** The seam-crossing branch of [_crop_panorama_view]: the two crops,
    pasted side by side on a fresh image, make the strip. *)
Lemma wrap_strip (panorama : Img.t) (start_px end_px : Z) :
  Img.wf panorama ->
  0 <= end_px -> end_px <= Img.width panorama ->
  0 <= start_px -> start_px <= Img.width panorama ->
  (left_part <- Img.crop panorama
                  (start_px, 0, Img.width panorama, Img.height panorama) ;;
   right_part <- Img.crop panorama (0, 0, end_px, Img.height panorama) ;;
   Ok (Img.paste
         (Img.paste
            (Img.new (Img.width left_part + Img.width right_part,
                      Img.height panorama))
            left_part (0, 0))
         right_part (Img.width left_part, 0)))
  = Ok (Img.mk (Img.height_ panorama)
          (skipn (Z.to_nat start_px) (Img.cols panorama)
           ++ firstn (Z.to_nat end_px) (Img.cols panorama))).
Proof.
  intros Hwf He0 He1 Hs0 Hs1.
  destruct panorama as [h pc].
  set (P := Img.mk h pc) in *.
  set (W := Img.width P) in *. set (H := Img.height P) in *.
  assert (HW : W = Z.of_nat (List.length pc)) by reflexivity.
  assert (HH : H = Z.of_nat h) by reflexivity.
  unfold Img.crop.
  destruct (Z.ltb_spec W start_px); [lia |].
  destruct (Z.ltb_spec H 0); [lia |].
  destruct (Z.ltb_spec end_px 0); [lia |].
  cbv beta iota delta [bind]. f_equal.
  set (L := Img.tabulate (W - start_px) (H - 0) _).
  set (R := Img.tabulate (end_px - 0) (H - 0) _).
  assert (HwL : Img.width L = W - start_px)
    by (unfold L; rewrite width_tabulate; lia).
  assert (HhL : Img.height L = H)
    by (unfold L; rewrite height_tabulate; lia).
  assert (HwR : Img.width R = end_px)
    by (unfold R; rewrite width_tabulate; lia).
  assert (HhR : Img.height R = H)
    by (unfold R; rewrite height_tabulate; lia).
  rewrite HwL, HwR.
  set (N := Img.new _).
  assert (HwN : Img.width N = W - start_px + end_px)
    by (unfold N, Img.new; rewrite width_tabulate; simpl; lia).
  assert (HhN : Img.height N = H)
    by (unfold N, Img.new; rewrite height_tabulate; simpl; lia).
  unfold Img.paste at 2. rewrite HwN, HhN, HwL, HhL.
  set (M := Img.tabulate _ _ _).
  assert (HwM : Img.width M = W - start_px + end_px)
    by (unfold M; rewrite width_tabulate; lia).
  assert (HhM : Img.height M = H)
    by (unfold M; rewrite height_tabulate; lia).
  unfold Img.paste. rewrite HwM, HhM, HwR, HhR.
  apply ext.
  - apply wf_tabulate.
  - apply wf_strip. exact Hwf.
  - rewrite width_tabulate. unfold Img.width; simpl.
    rewrite length_app, length_skipn, length_firstn. lia.
  - rewrite height_tabulate. unfold Img.height; simpl. lia.
  - intros x y. rewrite width_tabulate, height_tabulate. intros Hx Hy.
    rewrite sample_tabulate by lia.
    change (Img.cols P) with pc. change (Img.height_ P) with h.
    rewrite sample_strip by lia.
    fold P.
    replace (Z.of_nat (List.length pc - Z.to_nat start_px))
      with (W - start_px) by lia.
    rewrite Z2Nat.id by lia.
    destruct (Z.ltb_spec x (W - start_px)) as [Hlt | Hge].
    + replace (W - start_px <=? x) with false by (symmetry; apply Z.leb_gt; lia).
      simpl. unfold M. rewrite sample_tabulate by lia.
      replace (0 <=? x) with true by (symmetry; apply Z.leb_le; lia).
      replace (x <? 0 + (W - start_px)) with true
        by (symmetry; apply Z.ltb_lt; lia).
      replace (0 <=? y) with true by (symmetry; apply Z.leb_le; lia).
      replace (y <? 0 + H) with true by (symmetry; apply Z.ltb_lt; lia).
      simpl. unfold L. rewrite sample_tabulate by lia.
      f_equal; lia.
    + replace (W - start_px <=? x) with true by (symmetry; apply Z.leb_le; lia).
      replace (x <? W - start_px + end_px) with true
        by (symmetry; apply Z.ltb_lt; lia).
      replace (0 <=? y) with true by (symmetry; apply Z.leb_le; lia).
      replace (y <? 0 + H) with true by (symmetry; apply Z.ltb_lt; lia).
      simpl. unfold R. rewrite sample_tabulate by lia.
      f_equal; lia.
Qed.

(** A crop over the full height whose box lies inside the image is the
    run of columns [[x0, x1)]. *)
Lemma crop_columns (panorama : Img.t) (x0 x1 : Z) :
  Img.wf panorama ->
  0 <= x0 -> x0 <= x1 -> x1 <= Img.width panorama ->
  Img.crop panorama (x0, 0, x1, Img.height panorama)
  = Ok (Img.mk (Img.height_ panorama)
          (firstn (Z.to_nat (x1 - x0))
             (skipn (Z.to_nat x0) (Img.cols panorama)))).
Proof.
  intros Hwf H0 H01 H1.
  destruct panorama as [h pc].
  set (P := Img.mk h pc) in *.
  assert (HW : Img.width P = Z.of_nat (List.length pc)) by reflexivity.
  assert (HH : Img.height P = Z.of_nat h) by reflexivity.
  unfold Img.crop.
  destruct (Z.ltb_spec x1 x0); [lia |].
  destruct (Z.ltb_spec (Img.height P) 0); [lia |].
  f_equal. change (Img.height_ P) with h. change (Img.cols P) with pc.
  apply ext.
  - apply wf_tabulate.
  - unfold Img.wf in *; simpl in *. rewrite Forall_forall in *.
    intros c Hc. apply Hwf.
    rewrite <- (firstn_skipn (Z.to_nat x0) pc). apply in_or_app. right.
    rewrite <- (firstn_skipn (Z.to_nat (x1 - x0)) (skipn (Z.to_nat x0) pc)).
    apply in_or_app. now left.
  - rewrite width_tabulate. unfold Img.width; simpl.
    rewrite length_firstn, length_skipn. lia.
  - rewrite height_tabulate. unfold Img.height; simpl. lia.
  - intros x y. rewrite width_tabulate, height_tabulate. intros Hx Hy.
    rewrite sample_tabulate by lia.
    rewrite <- (Z2Nat.id x), <- (Z2Nat.id y) by lia.
    set (i := Z.to_nat x). set (j := Z.to_nat y).
    replace (x0 + Z.of_nat i) with (Z.of_nat (Z.to_nat x0 + i)) by lia.
    replace (0 + Z.of_nat j) with (Z.of_nat j) by lia.
    rewrite !sample_nat; simpl.
    rewrite nth_firstn, nth_skipn.
    destruct (Nat.ltb_spec i (Z.to_nat (x1 - x0))); [reflexivity | lia].
Qed.

(** The columns of the strip, one by one. *)
Lemma strip_column {A : Type} (l : list A) (s e i : nat) :
  (s <= List.length l)%nat ->
  nth_error (skipn s l ++ firstn e l) i
  = if (i <? List.length l - s)%nat then nth_error l (s + i)
    else if (i - (List.length l - s) <? e)%nat
         then nth_error l (i - (List.length l - s))
         else None.
Proof.
  intros Hs. rewrite nth_error_app, length_skipn.
  destruct (Nat.ltb_spec i (List.length l - s)).
  - apply nth_error_skipn.
  - apply nth_error_firstn.
Qed.

End ImgFacts.

(* ================================================================= *)
(** ** Visibility *)

Local Open Scope string_scope.

Lemma name_angles_filter (test : Q -> bool) (d1 d2 : Dict.t Position) :
  name_angles d1 = name_angles d2 ->
  map fst (filter (fun it => test (angle (snd it))) d1)
  = map fst (filter (fun it => test (angle (snd it))) d2).
Proof.
  revert d2. induction d1 as [| [n1 p1] d1 IH]; intros [| [n2 p2] d2];
    simpl; try discriminate; [reflexivity |].
  intros [= Hn Ha Hrest]. rewrite Ha.
  destruct (test (angle p2)); simpl; rewrite (IH _ Hrest); congruence.
Qed.

(** C1. For a registered camera with visible range (start, end) and a
    registered entity, [get_visible_characters] lists the entity exactly
    when the closed circular-interval test holds: for start <= end, when
    start <= angle <= end; for start > end, when angle >= start or
    angle <= end.  An entity standing exactly at start, or exactly at end,
    is listed. *)
Theorem visible_iff_in_closed_interval
    (calls : list call) (scene : string) (camera : Camera)
    (name : string) (position : Position) :
  Dict.get scene (camera_angles (run calls)) = Some camera ->
  Dict.get name (character_positions (run calls)) = Some position ->
  let start_ := fst (visible_range camera) in
  let end_ := snd (visible_range camera) in
  let a := angle position in
  let visible := In name (get_visible_characters (run calls) scene) in
  (start_ <= end_ -> (visible <-> start_ <= a /\ a <= end_)) /\
  (end_ < start_ -> (visible <-> start_ <= a \/ a <= end_)) /\
  (a == start_ -> visible) /\
  (a == end_ -> visible).
Proof.
  intros Hcam Hpos start_ end_ a visible.
  destruct (run_keys_nodup calls) as [Hnd _].
  pose proof (visible_in _ _ _ _ _ Hnd Hcam Hpos) as Hvis.
  fold start_ end_ a visible in Hvis.
  assert (Hno : start_ <= end_ -> (visible <-> start_ <= a /\ a <= end_))
    by (intros H; rewrite Hvis; now apply in_view_nowrap).
  assert (Hwr : end_ < start_ -> (visible <-> start_ <= a \/ a <= end_))
    by (intros H; rewrite Hvis; now apply in_view_wrap).
  repeat split; try (apply Hno; assumption); try (apply Hwr; assumption).
  - intros Ha. destruct (Qlt_le_dec end_ start_) as [H | H].
    + apply Hwr; [assumption |]. left. rewrite Ha. apply Qle_refl.
    + apply Hno; [assumption |]. rewrite Ha. split; [apply Qle_refl | assumption].
  - intros Ha. destruct (Qlt_le_dec end_ start_) as [H | H].
    + apply Hwr; [assumption |]. right. rewrite Ha. apply Qle_refl.
    + apply Hno; [assumption |]. rewrite Ha. split; [assumption | apply Qle_refl].
Qed.

(** In the test session, the camera of scene_1 (range 315 to 45, across
    the seam) sees Bob, who stands at angle 0. *)
Lemma visible_iff_in_closed_interval_witness :
  Dict.get "scene_1" (camera_angles (run test_calls))
  = Some (mkCamera (0 %% 360) 90 ((0 - 90 / 2) %% 360, (0 + 90 / 2) %% 360)) /\
  Dict.get "Bob" (character_positions (run test_calls))
  = Some (mkPosition (0 %% 360) (8 # 10)) /\
  In "Bob" (get_visible_characters (run test_calls) "scene_1").
Proof.
  split; [reflexivity |]. split; [reflexivity |].
  destruct (visible_iff_in_closed_interval test_calls "scene_1"
              (mkCamera (0 %% 360) 90
                 ((0 - 90 / 2) %% 360, (0 + 90 / 2) %% 360))
              "Bob" (mkPosition (0 %% 360) (8 # 10)) eq_refl eq_refl)
    as (_ & Hwrap & _ & _).
  apply Hwrap.
  - vm_compute. reflexivity.
  - right. vm_compute. discriminate.
Defined.

(** A scene id is in [camera_angles] exactly when some call registered
    it: nothing ever removes a camera. *)
Lemma registered_iff_called (calls : list call) (scene : string) :
  Dict.mem scene (camera_angles (run calls)) = true <->
  exists a f, In (RegisterCamera scene a f) calls.
Proof.
  induction calls as [| c calls IH] using rev_ind.
  - split; [discriminate | intros (a & f & [])].
  - rewrite run_snoc. split.
    + intros Hmem. destruct c as [n a d | s a f]; simpl in Hmem.
      * apply IH in Hmem. destruct Hmem as (a' & f' & Hin).
        exists a', f'. apply in_or_app. now left.
      * destruct (String.eqb_spec scene s) as [-> | Hne].
        -- exists a, f. apply in_or_app. right. now left.
        -- unfold Dict.mem in Hmem.
           rewrite DictFacts.get_set_ne in Hmem by assumption.
           apply IH in Hmem. destruct Hmem as (a' & f' & Hin).
           exists a', f'. apply in_or_app. now left.
    + intros (a & f & Hin). apply in_app_or in Hin.
      destruct Hin as [Hin | [-> | []]].
      * assert (Hmem : Dict.mem scene (camera_angles (run calls)) = true)
          by (apply IH; eauto).
        destruct c as [n a' d | s a' f']; simpl; [exact Hmem |].
        destruct (String.eqb_spec scene s) as [-> | Hne].
        -- unfold Dict.mem. now rewrite DictFacts.get_set_eq.
        -- unfold Dict.mem in *.
           now rewrite DictFacts.get_set_ne by assumption.
      * simpl. unfold Dict.mem. now rewrite DictFacts.get_set_eq.
Qed.

(** C4, as the code has it. For a scene id that no call has registered,
    [get_visible_characters] returns the empty list, the value it also
    returns for a registered camera that sees no entity;
    [extract_camera_view] is the operation that reports the unknown id,
    with a [ValueError]. *)
Theorem unregistered_camera_sees_nothing
    (calls : list call) (scene : string) :
  (forall a f, ~ In (RegisterCamera scene a f) calls) ->
  get_visible_characters (run calls) scene = [] /\
  forall panorama,
    extract_camera_view (run calls) panorama scene
    = ValueError ("Camera angle not registered for scene: " ++ scene).
Proof.
  intros Hnever.
  assert (Hmem : Dict.mem scene (camera_angles (run calls)) = false).
  { destruct (Dict.mem scene (camera_angles (run calls))) eqn:E; [| reflexivity].
    apply registered_iff_called in E. destruct E as (a & f & Hin).
    exfalso. exact (Hnever a f Hin). }
  split.
  - apply visible_unregistered. now apply DictFacts.mem_false.
  - intros panorama. unfold extract_camera_view. now rewrite Hmem.
Qed.

(** In the restaurant scene no call registers scene_6. *)
Lemma unregistered_camera_sees_nothing_witness :
  get_visible_characters (run restaurant_calls) "scene_6" = [] /\
  forall panorama,
    extract_camera_view (run restaurant_calls) panorama "scene_6"
    = ValueError "Camera angle not registered for scene: scene_6".
Proof.
  apply (unregistered_camera_sees_nothing restaurant_calls "scene_6").
  intros a f Hin. simpl in Hin.
  repeat (destruct Hin as [Hin | Hin]; [discriminate Hin |]).
  exact Hin.
Defined.

(** C4 fails as stated: in the restaurant scene the id "scene_6" was never
    registered and "scene_5_kiss" was, and the camera of "scene_5_kiss"
    sees neither character; the two queries return the same empty
    list. *)
Lemma unregistered_camera_indistinguishable :
  Dict.mem "scene_6" (camera_angles (run restaurant_calls)) = false /\
  Dict.mem "scene_5_kiss" (camera_angles (run restaurant_calls)) = true /\
  get_visible_characters (run restaurant_calls) "scene_6"
  = get_visible_characters (run restaurant_calls) "scene_5_kiss".
Proof. repeat split. Qed.

(** A range of field of view 360 is reduced to a point. *)
Lemma full_circle_range (a : Q) :
  (a - 360 / 2) %% 360 == (a + 360 / 2) %% 360.
Proof.
  assert (E : a - 360 / 2 == (a + 360 / 2) + 360 * inject_Z (-1))
    by (change (inject_Z (-1)) with (-1 # 1); field).
  rewrite E. apply mod_shift. reflexivity.
Qed.




(** C9. Depth has no part in visibility. Take two managers reached by
    registration calls that hold the same camera records and give every
    entity name the same angle, whatever depths they give: every camera
    id reports the same entities in both, and the same list when the
    entities were entered in the same order. *)
Theorem visibility_ignores_depth
    (calls1 calls2 : list call) (scene : string) :
  (forall s, Dict.get s (camera_angles (run calls1))
             = Dict.get s (camera_angles (run calls2))) ->
  (forall n, option_map angle (Dict.get n (character_positions (run calls1)))
             = option_map angle (Dict.get n (character_positions (run calls2)))) ->
  (forall name,
     In name (get_visible_characters (run calls1) scene) <->
     In name (get_visible_characters (run calls2) scene)) /\
  (name_angles (character_positions (run calls1))
   = name_angles (character_positions (run calls2)) ->
   get_visible_characters (run calls1) scene
   = get_visible_characters (run calls2) scene).
Proof.
  intros Hcams Hangles.
  destruct (run_keys_nodup calls1) as [Hnd1 _].
  destruct (run_keys_nodup calls2) as [Hnd2 _].
  specialize (Hcams scene).
  destruct (Dict.get scene (camera_angles (run calls2))) as [camera |] eqn:E2.
  - split.
    + assert (Hhalf : forall c1 c2 name,
        NoDup (Dict.keys (character_positions (run c1))) ->
        Dict.get scene (camera_angles (run c1)) = Some camera ->
        Dict.get scene (camera_angles (run c2)) = Some camera ->
        option_map angle (Dict.get name (character_positions (run c1)))
        = option_map angle (Dict.get name (character_positions (run c2))) ->
        In name (get_visible_characters (run c1) scene) ->
        In name (get_visible_characters (run c2) scene)).
      { intros c1 c2 name Hnd Hc1 Hc2 Ha Hin.
        rewrite (visible_registered _ _ _ Hc1) in Hin.
        apply in_map_iff in Hin. destruct Hin as [[n p] [Hn Hin]].
        simpl in Hn. subst n. apply filter_In in Hin.
        destruct Hin as [Hin Htest]. simpl in Htest.
        apply (DictFacts.in_get _ _ _ Hnd) in Hin.
        rewrite Hin in Ha. simpl in Ha.
        destruct (Dict.get name (character_positions (run c2)))
          as [p' |] eqn:E; [| discriminate].
        simpl in Ha. injection Ha as Ha.
        rewrite (visible_registered _ _ _ Hc2). apply in_map_iff.
        exists (name, p'). split; [reflexivity |].
        apply filter_In. split; [now apply DictFacts.get_in |].
        simpl. now rewrite <- Ha. }
      intros name. split.
      * apply (Hhalf calls1 calls2); auto.
      * apply (Hhalf calls2 calls1); auto.
    + intros Horder.
      rewrite (visible_registered _ _ _ Hcams), (visible_registered _ _ _ E2).
      now apply name_angles_filter.
  - rewrite (visible_unregistered _ _ Hcams), (visible_unregistered _ _ E2).
    split; [reflexivity | reflexivity].
Qed.

(** The restaurant scene with two choices of depths: Bob's depth differs
    and the camera behind Bob reports the same list. *)
Lemma visibility_ignores_depth_witness :
  option_map depth (Dict.get "Bob" (character_positions (run restaurant_calls)))
  <> option_map depth
       (Dict.get "Bob" (character_positions (run restaurant_calls_flat))) /\
  get_visible_characters (run restaurant_calls) "scene_2_ots_bob"
  = get_visible_characters (run restaurant_calls_flat) "scene_2_ots_bob".
Proof.
  split; [discriminate |].
  apply (visibility_ignores_depth restaurant_calls restaurant_calls_flat
           "scene_2_ots_bob").
  - intros s. reflexivity.
  - intros n. simpl.
    destruct (String.eqb n "Alice"); [reflexivity |].
    destruct (String.eqb n "Bob"); reflexivity.
  - reflexivity.
Defined.

(* ================================================================= *)
(** ** Registration *)

(** C6. The range stored by [register_camera_angle] for a camera at angle
    [a] with field of view [f] has start [(a - f/2) mod 360] and end
    [(a + f/2) mod 360], both in [0, 360) and congruent to [a - f/2] and
    [a + f/2] modulo 360, and its circular width [(end - start) mod 360]
    is [f mod 360].  This holds for every [f], hence for every [f > 0]. *)
Theorem visible_range_width
    (self : EnvironmentManager) (scene : string) (a f : Q) :
  exists camera,
    Dict.get scene (camera_angles (register_camera_angle self scene a f))
    = Some camera /\
    let start_ := fst (visible_range camera) in
    let end_ := snd (visible_range camera) in
    start_ = (a - f / 2) %% 360 /\
    end_ = (a + f / 2) %% 360 /\
    normalized start_ /\ normalized end_ /\
    (exists k : Z, a - f / 2 == start_ + 360 * inject_Z k) /\
    (exists k : Z, a + f / 2 == end_ + 360 * inject_Z k) /\
    (end_ - start_) %% 360 == f %% 360.
Proof.
  eexists. split; [apply DictFacts.get_set_eq |]. simpl.
  repeat split; try apply mod_360_normalized.
  - exists (Py.floordiv (a - f / 2) 360). apply mod_decompose.
  - exists (Py.floordiv (a + f / 2) 360). apply mod_decompose.
  - apply mod_width. reflexivity.
Qed.


(** C8. Registration is idempotent and the last write wins.  Registering a
    camera a second time with the same parameters changes nothing, so the
    id yields the same record, with the same visible range, both times.
    Registering an id again with new parameters leaves the manager exactly
    as if the earlier registration had not been made: the record is the
    one computed from the new parameters alone.  The same holds for
    entities.  Registration is a total function: it raises nothing. *)
Theorem registration_last_write_wins
    (self : EnvironmentManager) (id : string) (a f a' f' d d' : Q) :
  register_camera_angle (register_camera_angle self id a f) id a f
  = register_camera_angle self id a f /\
  visible_range_of
    (register_camera_angle (register_camera_angle self id a f) id a f) id
  = visible_range_of (register_camera_angle self id a f) id /\
  register_camera_angle (register_camera_angle self id a f) id a' f'
  = register_camera_angle self id a' f' /\
  Dict.get id
    (camera_angles
       (register_camera_angle (register_camera_angle self id a f) id a' f'))
  = Some (mkCamera (a' %% 360) f'
            ((a' - f' / 2) %% 360, (a' + f' / 2) %% 360)) /\
  register_character_position (register_character_position self id a d) id a d
  = register_character_position self id a d /\
  register_character_position (register_character_position self id a d) id a' d'
  = register_character_position self id a' d' /\
  Dict.get id
    (character_positions
       (register_character_position
          (register_character_position self id a d) id a' d'))
  = Some (mkPosition (a' %% 360) d').
Proof.
  unfold visible_range_of, register_camera_angle, register_character_position;
    simpl.
  rewrite !DictFacts.set_set, !DictFacts.get_set_eq.
  repeat split.
Qed.

(** C10. The two dictionaries are independent.  [register_camera_angle]
    leaves [character_positions] as it is and leaves the record of every
    other scene id as it is; [register_character_position] leaves
    [camera_angles] as it is and leaves the record of every other name as
    it is.  Neither consults the other dictionary: the new camera
    dictionary is determined by the old camera dictionary, the new entity
    dictionary by the old entity dictionary. *)
Theorem registration_frame
    (self other : EnvironmentManager) (id id' : string) (a x y : Q) :
  character_positions (register_camera_angle self id a x)
  = character_positions self /\
  camera_angles (register_character_position self id a y)
  = camera_angles self /\
  (id' <> id ->
   Dict.get id' (camera_angles (register_camera_angle self id a x))
   = Dict.get id' (camera_angles self)) /\
  (id' <> id ->
   Dict.get id' (character_positions (register_character_position self id a y))
   = Dict.get id' (character_positions self)) /\
  (camera_angles self = camera_angles other ->
   camera_angles (register_camera_angle self id a x)
   = camera_angles (register_camera_angle other id a x)) /\
  (character_positions self = character_positions other ->
   character_positions (register_character_position self id a y)
   = character_positions (register_character_position other id a y)).
Proof.
  repeat split; simpl.
  - intros Hne. now apply DictFacts.get_set_ne.
  - intros Hne. now apply DictFacts.get_set_ne.
  - intros ->. reflexivity.
  - intros ->. reflexivity.
Qed.

(* ================================================================= *)
(** ** Extraction *)

Local Open Scope Z_scope.

Lemma registered_pixel_bounds calls scene camera (width : Z) :
  Dict.get scene (camera_angles (run calls)) = Some camera ->
  0 <= width ->
  0 <= fst (pixel_bounds camera width) <= width /\
  0 <= snd (pixel_bounds camera width) <= width.
Proof.
  intros Hget Hw. apply registered_camera_ok in Hget.
  destruct Hget as (_ & [Hs0 Hs1] & [He0 He1]). simpl in *.
  split; apply to_px_range; assumption.
Qed.

Lemma extract_registered self panorama scene camera :
  Dict.get scene (camera_angles self) = Some camera ->
  extract_camera_view self panorama scene
  = _crop_panorama_view panorama camera.
Proof.
  intros Hget. unfold extract_camera_view, Dict.mem. now rewrite Hget.
Qed.

(** C2. When the pixel bounds computed for a registered camera satisfy
    [end_px < start_px], [extract_camera_view] succeeds and returns the
    image made of two crops of the panorama, the columns
    [[start_px, W)] first and the columns [[0, end_px)] after them: its
    width is [(W - start_px) + end_px] and its height is [H].  With
    [W = 1000] and pixel bounds [(900, 50)] the width is 150, the
    leftmost column is column 900 of the panorama and the rightmost is
    column 49. *)
Theorem seam_crossing_view
    (calls : list call) (scene : string) (camera : Camera)
    (panorama : Img.t) :
  Img.wf panorama ->
  Dict.get scene (camera_angles (run calls)) = Some camera ->
  let W := Img.width panorama in
  let H := Img.height panorama in
  let start_px := fst (pixel_bounds camera W) in
  let end_px := snd (pixel_bounds camera W) in
  end_px < start_px ->
  exists left_part right_part out,
    Img.crop panorama (start_px, 0, W, H) = Ok left_part /\
    Img.cols left_part = skipn (Z.to_nat start_px) (Img.cols panorama) /\
    Img.crop panorama (0, 0, end_px, H) = Ok right_part /\
    Img.cols right_part = firstn (Z.to_nat end_px) (Img.cols panorama) /\
    extract_camera_view (run calls) panorama scene = Ok out /\
    Img.cols out = (Img.cols left_part ++ Img.cols right_part)%list /\
    Img.width out = (W - start_px) + end_px /\
    Img.height out = H /\
    (W = 1000 -> start_px = 900 -> end_px = 50 ->
     Img.width out = 150 /\
     nth_error (Img.cols out) 0 = nth_error (Img.cols panorama) 900 /\
     nth_error (Img.cols out) 149 = nth_error (Img.cols panorama) 49).
Proof.
  intros Hwf Hget W H start_px end_px Hwrap.
  assert (HW0 : 0 <= W) by (unfold W, Img.width; lia).
  destruct (registered_pixel_bounds calls scene camera W Hget HW0)
    as [Hs He].
  fold start_px end_px in Hs, He.
  pose proof (ImgFacts.crop_columns panorama start_px W Hwf) as HL.
  pose proof (ImgFacts.crop_columns panorama 0 end_px Hwf) as HR.
  fold W H in HL, HR.
  specialize (HL ltac:(lia) ltac:(lia) ltac:(lia)).
  specialize (HR ltac:(lia) ltac:(lia) ltac:(lia)).
  assert (HlenW : Z.of_nat (List.length (Img.cols panorama)) = W)
    by reflexivity.
  rewrite firstn_all2 in HL by (rewrite length_skipn; lia).
  rewrite Z.sub_0_r in HR. change (Z.to_nat 0) with 0%nat in HR.
  rewrite skipn_0 in HR.
  eexists _, _, _.
  split; [exact HL |]. split; [reflexivity |].
  split; [exact HR |]. split; [reflexivity |].
  assert (Hout : extract_camera_view (run calls) panorama scene
    = Ok (Img.mk (Img.height_ panorama)
            (skipn (Z.to_nat start_px) (Img.cols panorama)
             ++ firstn (Z.to_nat end_px) (Img.cols panorama)))).
  { rewrite (extract_registered _ _ _ _ Hget).
    unfold _crop_panorama_view, Img.size.
    destruct (visible_range camera) as [s e] eqn:Hrange.
    assert (Es : to_px s (Img.width panorama) = start_px)
      by (unfold start_px, pixel_bounds; now rewrite Hrange).
    assert (Ee : to_px e (Img.width panorama) = end_px)
      by (unfold end_px, pixel_bounds; now rewrite Hrange).
    rewrite Es, Ee. unfold Py.ltz.
    destruct (Z.ltb_spec end_px start_px); [| lia].
    apply ImgFacts.wrap_strip; fold W; try assumption; lia. }
  split; [exact Hout |]. simpl Img.cols.
  split; [reflexivity |].
  assert (Hwidth : Img.width
    (Img.mk (Img.height_ panorama)
       (skipn (Z.to_nat start_px) (Img.cols panorama)
        ++ firstn (Z.to_nat end_px) (Img.cols panorama)))
    = W - start_px + end_px).
  { unfold Img.width; simpl.
    rewrite length_app, length_skipn, length_firstn. lia. }
  split; [exact Hwidth |]. split; [reflexivity |].
  intros EW Estart Eend. rewrite Hwidth, EW, Estart, Eend.
  split; [reflexivity |].
  assert (Hlen : List.length (Img.cols panorama) = 1000%nat) by lia.
  rewrite !ImgFacts.strip_column by lia. rewrite Hlen.
  split; reflexivity.
Qed.

(** The camera at 351 degrees with field of view 54 on the panorama of
    width 1000: pixel bounds (900, 50), a view of 150 columns from
    column 900 to column 49. *)
Lemma seam_crossing_view_witness :
  Img.wf numbered_panorama /\
  pixel_bounds
    seam_camera
    (Img.width numbered_panorama) = (900, 50) /\
  exists out,
    extract_camera_view (run seam_calls) numbered_panorama "seam" = Ok out /\
    Img.width out = 150 /\
    nth_error (Img.cols out) 0 = Some [(132, 3, 0); (132, 3, 1)] /\
    nth_error (Img.cols out) 149 = Some [(49, 0, 0); (49, 0, 1)].
Proof.
  assert (Hwf : Img.wf numbered_panorama) by apply ImgFacts.wf_tabulate.
  split; [exact Hwf |]. split; [vm_compute; reflexivity |].
  destruct (seam_crossing_view seam_calls "seam"
              seam_camera
              numbered_panorama Hwf eq_refl
              ltac:(vm_compute; reflexivity))
    as (left_part & right_part & out & _ & _ & _ & _ & Hout & _ & _ & _ & Hex).
  exists out. split; [exact Hout |].
  destruct Hex as (Hw & H0 & H149); try (vm_compute; reflexivity).
  split; [exact Hw |]. split.
  - rewrite H0. vm_compute. reflexivity.
  - rewrite H149. vm_compute. reflexivity.
Defined.




(* ================================================================= *)
(** ** Further properties of the extraction *)

(** Both branches of [_crop_panorama_view] on a panorama whose columns
    all have the height of the image, for a range of normalized
    angles. *)
Lemma crop_view_columns (panorama : Img.t) (camera : Camera) :
  Img.wf panorama ->
  normalized (fst (visible_range camera)) ->
  normalized (snd (visible_range camera)) ->
  let W := Img.width panorama in
  let start_px := fst (pixel_bounds camera W) in
  let end_px := snd (pixel_bounds camera W) in
  _crop_panorama_view panorama camera
  = Ok (Img.mk (Img.height_ panorama)
          (if end_px <? start_px
           then (skipn (Z.to_nat start_px) (Img.cols panorama)
                 ++ firstn (Z.to_nat end_px) (Img.cols panorama))%list
           else firstn (Z.to_nat (end_px - start_px))
                  (skipn (Z.to_nat start_px) (Img.cols panorama)))).
Proof.
  intros Hwf [Hs0 Hs1] [He0 He1] W start_px end_px.
  assert (HW0 : 0 <= W) by (unfold W, Img.width; lia).
  assert (Hs : 0 <= start_px <= W) by (apply to_px_range; assumption).
  assert (He : 0 <= end_px <= W) by (apply to_px_range; assumption).
  unfold _crop_panorama_view, Img.size.
  destruct (visible_range camera) as [s e] eqn:Hrange.
  assert (Es : to_px s (Img.width panorama) = start_px)
    by (unfold start_px, pixel_bounds; now rewrite Hrange).
  assert (Ee : to_px e (Img.width panorama) = end_px)
    by (unfold end_px, pixel_bounds; now rewrite Hrange).
  rewrite Es, Ee. unfold Py.ltz.
  destruct (Z.ltb_spec end_px start_px).
  - apply ImgFacts.wrap_strip; fold W; try assumption; lia.
  - apply ImgFacts.crop_columns; fold W; try assumption; lia.
Qed.

Lemma registered_crop_view calls scene camera panorama :
  Img.wf panorama ->
  Dict.get scene (camera_angles (run calls)) = Some camera ->
  let W := Img.width panorama in
  let start_px := fst (pixel_bounds camera W) in
  let end_px := snd (pixel_bounds camera W) in
  extract_camera_view (run calls) panorama scene
  = Ok (Img.mk (Img.height_ panorama)
          (if end_px <? start_px
           then (skipn (Z.to_nat start_px) (Img.cols panorama)
                 ++ firstn (Z.to_nat end_px) (Img.cols panorama))%list
           else firstn (Z.to_nat (end_px - start_px))
                  (skipn (Z.to_nat start_px) (Img.cols panorama)))).
Proof.
  intros Hwf Hget. rewrite (extract_registered _ _ _ _ Hget).
  apply registered_camera_ok in Hget. destruct Hget as (_ & Hs & He).
  now apply crop_view_columns.
Qed.

Lemma in_firstn {A : Type} (x : A) (n : nat) (l : list A) :
  In x (firstn n l) -> In x l.
Proof.
  intros Hin. rewrite <- (firstn_skipn n l). apply in_or_app. now left.
Qed.

Lemma in_skipn {A : Type} (x : A) (n : nat) (l : list A) :
  In x (skipn n l) -> In x l.
Proof.
  intros Hin. rewrite <- (firstn_skipn n l). apply in_or_app. now right.
Qed.





(* ================================================================= *)
(** ** The shape of a visible range *)

Section RangeShape.

Local Open Scope Q_scope.

Lemma between_0_1 (j : Z) :
  -1 < inject_Z j -> inject_Z j < 2 -> j = 0%Z \/ j = 1%Z.
Proof.
  intros Hlo Hhi.
  change (-1) with (inject_Z (-1)) in Hlo.
  change 2 with (inject_Z 2) in Hhi.
  rewrite <- Zlt_Qlt in Hlo, Hhi. lia.
Qed.

Lemma inject_Z_sub (x y : Z) : inject_Z (x - y) == inject_Z x - inject_Z y.
Proof. unfold Z.sub. rewrite inject_Z_plus, inject_Z_opp. ring. Qed.

(** For a field of view [0 <= f < 360] the two ends of the range are
    [f] apart: either the range does not wrap and [end = start + f], or
    it wraps and [end = start + f - 360]. *)
Lemma range_shape (a f : Q) :
  0 <= f -> f < 360 ->
  let start_ := (a - f / 2) %% 360 in
  let end_ := (a + f / 2) %% 360 in
  (start_ <= end_ /\ end_ == start_ + f) \/
  (end_ < start_ /\ end_ == start_ + f - 360).
Proof.
  intros Hf0 Hf1 start_ end_.
  destruct (mod_360_normalized (a - f / 2)) as [Hs0 Hs1].
  destruct (mod_360_normalized (a + f / 2)) as [He0 He1].
  fold start_ in Hs0, Hs1. fold end_ in He0, He1.
  pose proof (mod_decompose (a - f / 2) 360) as Ds.
  pose proof (mod_decompose (a + f / 2) 360) as De.
  fold start_ in Ds. fold end_ in De.
  set (m1 := Py.floordiv (a - f / 2) 360) in *.
  set (m2 := Py.floordiv (a + f / 2) 360) in *.
  pose proof (inject_Z_sub m2 m1) as Hj.
  assert (Hh : f == 2 * (f / 2)) by field.
  destruct (between_0_1 (m2 - m1)) as [E | E]; try lra;
    rewrite E in Hj.
  - left. change (inject_Z 0) with 0 in Hj. split; lra.
  - right. change (inject_Z 1) with 1 in Hj. split; lra.
Qed.

(** The visibility test decides closeness on the circle. *)
Lemma in_view_within (a f b : Q) :
  0 <= f -> f < 360 ->
  in_view ((a - f / 2) %% 360) ((a + f / 2) %% 360) (b %% 360) = true
  <-> within_half_fov a f b.
Proof.
  intros Hf0 Hf1.
  pose proof (range_shape a f Hf0 Hf1) as Hshape. cbv zeta in Hshape.
  destruct (mod_360_normalized (a - f / 2)) as [Hs0 Hs1].
  destruct (mod_360_normalized (a + f / 2)) as [He0 He1].
  destruct (mod_360_normalized b) as [Hc0 Hc1].
  pose proof (mod_decompose (a - f / 2) 360) as Ds.
  pose proof (mod_decompose b 360) as Dc.
  set (s := (a - f / 2) %% 360) in *.
  set (e := (a + f / 2) %% 360) in *.
  set (c := b %% 360) in *.
  set (m1 := Py.floordiv (a - f / 2) 360) in *.
  set (m3 := Py.floordiv b 360) in *.
  assert (Hh : f == 2 * (f / 2)) by field.
  unfold within_half_fov. split.
  - intros Hview. destruct Hshape as [[Hse Ee] | [Hes Ee]].
    + apply in_view_nowrap in Hview; [| assumption].
      exists (m1 - m3)%Z. pose proof (inject_Z_sub m1 m3). lra.
    + apply in_view_wrap in Hview; [| assumption].
      destruct Hview as [Hsc | Hce].
      * exists (m1 - m3)%Z. pose proof (inject_Z_sub m1 m3). lra.
      * exists (m1 - m3 + 1)%Z.
        pose proof (inject_Z_sub m1 m3) as H1.
        rewrite inject_Z_plus. change (inject_Z 1) with 1. lra.
  - intros [k [Hlo Hhi]].
    set (n := (m1 - k - m3)%Z).
    assert (Hn : inject_Z n == inject_Z m1 - inject_Z k - inject_Z m3)
      by (unfold n; rewrite !inject_Z_sub; reflexivity).
    assert (Hcases : (n + 1 = 0 \/ n + 1 = 1)%Z).
    { apply between_0_1; rewrite inject_Z_plus;
        change (inject_Z 1) with 1; lra. }
    destruct Hshape as [[Hse Ee] | [Hes Ee]].
    + apply in_view_nowrap; [assumption |].
      destruct Hcases as [E | E].
      * assert (En : inject_Z n == -1)
          by (replace n with (-1)%Z by lia; reflexivity).
        lra.
      * assert (En : inject_Z n == 0)
          by (replace n with 0%Z by lia; reflexivity).
        lra.
    + apply in_view_wrap; [assumption |].
      destruct Hcases as [E | E].
      * assert (En : inject_Z n == -1)
          by (replace n with (-1)%Z by lia; reflexivity).
        right. lra.
      * assert (En : inject_Z n == 0)
          by (replace n with 0%Z by lia; reflexivity).
        left. lra.
Qed.

Lemma Qfloor_bounds (x : Q) :
  inject_Z (Qfloor x) <= x /\ x < inject_Z (Qfloor x) + 1.
Proof.
  split; [apply Qfloor_le |].
  pose proof (Qlt_floor x) as H. rewrite inject_Z_plus in H. exact H.
Qed.

(** [int((angle / 360) * width)] grows with the angle. *)
Lemma to_px_monotone (a b : Q) (w : Z) :
  0 <= a -> a <= b -> (0 <= w)%Z -> (to_px a w <= to_px b w)%Z.
Proof.
  intros Ha Hab Hw.
  rewrite !to_px_floor by (assumption || lra).
  apply Qfloor_resp_le.
  assert (Hw' : 0 <= inject_Z w)
    by (change 0 with (inject_Z 0); rewrite <- Zle_Qle; assumption).
  assert (0 <= (b / 360 - a / 360) * inject_Z w).
  { apply Qmult_le_0_compat; [| assumption].
    assert (E : b / 360 - a / 360 == (b - a) / 360) by field.
    rewrite E. apply Qle_shift_div_l; lra. }
  lra.
Qed.

Lemma to_px_comp (a b : Q) (w : Z) :
  0 <= a -> a == b -> (0 <= w)%Z -> to_px a w = to_px b w.
Proof.
  intros Ha Hab Hw.
  rewrite !to_px_floor by (assumption || lra).
  apply Qfloor_comp. now rewrite Hab.
Qed.

End RangeShape.

(* ================================================================= *)
(** ** Further properties of visibility *)

Local Open Scope Q_scope.

Lemma in_view_comp (s s' e e' a a' : Q) :
  s == s' -> e == e' -> a == a' -> in_view s e a = in_view s' e' a'.
Proof.
  intros Hs He Ha. unfold in_view, Py.le, Py.ge.
  rewrite (Qleb_comp s s' Hs e e' He), (Qleb_comp s s' Hs a a' Ha),
    (Qleb_comp a a' Ha e e' He).
  reflexivity.
Qed.

(** [get_visible_characters] as a filter, registered camera or not. *)
Lemma visible_unfold (self : EnvironmentManager) (scene : string) :
  get_visible_characters self scene
  = match Dict.get scene (camera_angles self) with
    | None => []
    | Some camera =>
        map fst
          (filter (fun it => in_view (fst (visible_range camera))
                                     (snd (visible_range camera))
                                     (angle (snd it)))
                  (character_positions self))
    end.
Proof.
  destruct (Dict.get scene (camera_angles self)) as [camera |] eqn:E.
  - now apply visible_registered.
  - now apply visible_unregistered.
Qed.

Lemma filter_set_same {V : Type} (test : V -> bool) k v v' (d : Dict.t V) :
  test v = test v' ->
  map fst (filter (fun it => test (snd it)) (Dict.set k v d))
  = map fst (filter (fun it => test (snd it)) (Dict.set k v' d)).
Proof.
  intros Hv. induction d as [| [k0 v0] d IH]; simpl.
  - rewrite Hv. destruct (test v'); reflexivity.
  - destruct (String.eqb k k0); simpl.
    + rewrite Hv. destruct (test v'); reflexivity.
    + destruct (test v0); simpl; now rewrite IH.
Qed.

Lemma filter_set_other {V : Type} (test : V -> bool) k v (d : Dict.t V) k' :
  k' <> k ->
  In k' (map fst (filter (fun it => test (snd it)) (Dict.set k v d))) <->
  In k' (map fst (filter (fun it => test (snd it)) d)).
Proof.
  intros Hne. induction d as [| [k0 v0] d IH]; simpl.
  - destruct (test v); simpl; intuition congruence.
  - destruct (String.eqb_spec k k0) as [<- | Hk]; simpl.
    + destruct (test v), (test v0); simpl; intuition congruence.
    + destruct (test v0); simpl; rewrite IH; reflexivity.
Qed.

Lemma crop_view_comp (panorama : Img.t) (c1 c2 : Camera) :
  0 <= fst (visible_range c1) -> 0 <= snd (visible_range c1) ->
  fst (visible_range c1) == fst (visible_range c2) ->
  snd (visible_range c1) == snd (visible_range c2) ->
  _crop_panorama_view panorama c1 = _crop_panorama_view panorama c2.
Proof.
  unfold _crop_panorama_view, Img.size.
  destruct (visible_range c1) as [s1 e1], (visible_range c2) as [s2 e2].
  cbn [fst snd]. intros Hs0 He0 Hs He.
  assert (HW : (0 <= Img.width panorama)%Z) by (unfold Img.width; lia).
  rewrite (to_px_comp s1 s2 _ Hs0 Hs HW), (to_px_comp e1 e2 _ He0 He HW).
  reflexivity.
Qed.

Lemma half_turn_start (a f : Q) (k : Z) :
  (a + 360 * inject_Z k - f / 2) %% 360 == (a - f / 2) %% 360.
Proof.
  assert (E : a + 360 * inject_Z k - f / 2 == a - f / 2 + 360 * inject_Z k)
    by ring.
  rewrite E. apply mod_shift. reflexivity.
Qed.

Lemma half_turn_end (a f : Q) (k : Z) :
  (a + 360 * inject_Z k + f / 2) %% 360 == (a + f / 2) %% 360.
Proof.
  assert (E : a + 360 * inject_Z k + f / 2 == a + f / 2 + 360 * inject_Z k)
    by ring.
  rewrite E. apply mod_shift. reflexivity.
Qed.




(** X5. Queries on other ids are not disturbed.  Registering a camera
    changes neither the list of visible entities nor the extracted view of
    any other scene id; registering an entity changes no extracted view
    and does not change whether any other entity is visible. *)
Theorem registration_keeps_other_queries
    (self : EnvironmentManager) (id other : string) (a x : Q)
    (scene : string) (panorama : Img.t) :
  other <> id ->
  get_visible_characters (register_camera_angle self id a x) other
  = get_visible_characters self other /\
  extract_camera_view (register_camera_angle self id a x) panorama other
  = extract_camera_view self panorama other /\
  extract_camera_view (register_character_position self id a x) panorama scene
  = extract_camera_view self panorama scene /\
  (In other (get_visible_characters
               (register_character_position self id a x) scene)
   <-> In other (get_visible_characters self scene)).
Proof.
  intros Hne. split; [| split; [| split]].
  - rewrite !visible_unfold. simpl.
    now rewrite DictFacts.get_set_ne by assumption.
  - unfold extract_camera_view, Dict.mem. simpl.
    now rewrite DictFacts.get_set_ne by assumption.
  - reflexivity.
  - rewrite !visible_unfold. simpl.
    destruct (Dict.get scene (camera_angles self)) as [camera |];
      [| reflexivity].
    apply (filter_set_other
             (fun p => in_view (fst (visible_range camera))
                               (snd (visible_range camera)) (angle p))).
    assumption.
Qed.

(** In the restaurant scene, moving Bob to angle 90 leaves Alice visible
    to the camera of the close-up on her. *)
Lemma registration_keeps_other_queries_witness :
  In "Alice"
    (get_visible_characters
       (register_character_position (run restaurant_calls) "Bob" 90 1)
       "scene_3_closeup_alice").
Proof.
  apply (registration_keeps_other_queries (run restaurant_calls)
           "Bob" "Alice" 90 1 "scene_3_closeup_alice" small_panorama).
  - discriminate.
  - vm_compute. left. reflexivity.
Defined.

Lemma subsequence_in {A : Type} (l1 l2 : list A) (x : A) :
  subsequence l1 l2 -> In x l1 -> In x l2.
Proof.
  induction 1 as [| y l1 l2 _ IH | y l1 l2 _ IH]; simpl; intuition.
Qed.

Lemma subsequence_nodup {A : Type} (l1 l2 : list A) :
  subsequence l1 l2 -> NoDup l2 -> NoDup l1.
Proof.
  induction 1 as [| y l1 l2 Hsub IH | y l1 l2 Hsub IH]; intros Hnd.
  - constructor.
  - inversion Hnd; auto.
  - inversion Hnd as [| ? ? Hnotin Hrest]; subst. constructor; [| auto].
    intros Hin. apply Hnotin. eapply subsequence_in; eassumption.
Qed.

Lemma filter_keys_subsequence {V : Type} (test : string * V -> bool)
    (d : Dict.t V) :
  subsequence (map fst (filter test d)) (Dict.keys d).
Proof.
  induction d as [| it d IH]; simpl.
  - constructor.
  - destruct (test it); simpl; now constructor.
Qed.

(** The order of the names is the order of their first registration: a
    name registered again keeps its place. *)
Lemma keys_set_order {V : Type} (k : string) (v : V) (d : Dict.t V) :
  Dict.keys (Dict.set k v d)
  = if Dict.mem k d then Dict.keys d else (Dict.keys d ++ [k])%list.
Proof.
  unfold Dict.mem. induction d as [| [k0 v0] d IH]; simpl.
  - reflexivity.
  - destruct (String.eqb_spec k k0) as [<- | Hne]; simpl.
    + reflexivity.
    + rewrite IH. now destruct (Dict.get k d).
Qed.

(** X6. The list returned by [get_visible_characters] is made of
    registered names, in the order of the dictionary of entities, and no
    name occurs twice in it.  That order is the order of first
    registration: registering a name again leaves the order as it is, and
    a new name goes to the end. *)
Theorem visible_list_ordered
    (calls : list call) (scene : string) :
  subsequence (get_visible_characters (run calls) scene)
              (Dict.keys (character_positions (run calls))) /\
  NoDup (get_visible_characters (run calls) scene) /\
  (forall name, In name (get_visible_characters (run calls) scene) ->
                Dict.mem name (character_positions (run calls)) = true) /\
  (forall name a d,
     Dict.keys
       (character_positions
          (register_character_position (run calls) name a d))
     = if Dict.mem name (character_positions (run calls))
       then Dict.keys (character_positions (run calls))
       else (Dict.keys (character_positions (run calls)) ++ [name])%list).
Proof.
  destruct (run_keys_nodup calls) as [Hnd _].
  assert (Hsub : subsequence (get_visible_characters (run calls) scene)
                   (Dict.keys (character_positions (run calls)))).
  { rewrite visible_unfold.
    destruct (Dict.get scene (camera_angles (run calls))).
    - apply filter_keys_subsequence.
    - clear Hnd. induction (character_positions (run calls)); simpl;
        now constructor. }
  split; [exact Hsub |]. split; [| split].
  - eapply subsequence_nodup; eassumption.
  - intros name Hin. pose proof (subsequence_in _ _ _ Hsub Hin) as Hkey.
    unfold Dict.keys in Hkey. apply in_map_iff in Hkey.
    destruct Hkey as [[n p] [Hn Hitem]]. simpl in Hn. subst n.
    apply DictFacts.mem_get. exists p.
    now apply DictFacts.in_get.
  - intros name a d. simpl. apply keys_set_order.
Qed.

(* ================================================================= *)
(** ** The width of the extracted view *)

Local Open Scope Z_scope.

Lemma registered_view_width calls scene camera panorama :
  Img.wf panorama ->
  Dict.get scene (camera_angles (run calls)) = Some camera ->
  let W := Img.width panorama in
  let start_px := fst (pixel_bounds camera W) in
  let end_px := snd (pixel_bounds camera W) in
  exists out,
    extract_camera_view (run calls) panorama scene = Ok out /\
    Img.width out
    = if end_px <? start_px then W - start_px + end_px
      else end_px - start_px.
Proof.
  intros Hwf Hget W start_px end_px.
  assert (HW0 : 0 <= W) by (unfold W, Img.width; lia).
  destruct (registered_pixel_bounds calls scene camera W Hget HW0)
    as [Hs He].
  fold start_px end_px in Hs, He.
  pose proof (registered_crop_view calls scene camera panorama Hwf Hget)
    as Hout.
  cbv zeta in Hout. fold W in Hout. fold start_px end_px in Hout.
  assert (HlenW : Z.of_nat (List.length (Img.cols panorama)) = W)
    by reflexivity.
  eexists. split; [exact Hout |].
  unfold Img.width at 1; simpl.
  destruct (Z.ltb_spec end_px start_px).
  - rewrite length_app, length_skipn, length_firstn. lia.
  - rewrite length_firstn, length_skipn. lia.
Qed.

Lemma register_camera_run calls scene a f :
  register_camera_angle (run calls) scene a f
  = run (calls ++ [RegisterCamera scene a f]).
Proof. now rewrite run_snoc. Qed.



(** X8. The pixel conversion keeps the order of the angles, so the seam
    branch is taken only for a range that wraps: for a registered camera,
    [end_px < start_px] implies [end < start]. *)
Theorem seam_branch_only_when_wrapping
    (calls : list call) (scene : string) (camera : Camera) (width : Z) :
  Dict.get scene (camera_angles (run calls)) = Some camera ->
  0 <= width ->
  snd (pixel_bounds camera width) < fst (pixel_bounds camera width) ->
  (snd (visible_range camera) < fst (visible_range camera))%Q.
Proof.
  intros Hget Hw Hpx.
  apply registered_camera_ok in Hget.
  destruct Hget as (_ & [Hs0 Hs1] & [He0 He1]). simpl in *.
  destruct (Qlt_le_dec (snd (visible_range camera))
                       (fst (visible_range camera))) as [Hlt | Hle];
    [exact Hlt |].
  pose proof (to_px_monotone _ _ width Hs0 Hle Hw) as Hmono.
  unfold pixel_bounds in Hpx; simpl in Hpx. lia.
Qed.

(** The seam camera on a panorama of width 1000: pixel bounds (900, 50),
    range 324 to 18. *)
Lemma seam_branch_only_when_wrapping_witness :
  (snd (visible_range seam_camera) < fst (visible_range seam_camera))%Q.
Proof.
  apply (seam_branch_only_when_wrapping seam_calls "seam" seam_camera 1000
           eq_refl).
  - lia.
  - vm_compute. reflexivity.
Defined.

(** The two pixel bounds of a camera registered with angle [a] and field
    of view [0 <= f < 360], against the share [f / 360 * W] of the
    panorama. *)
Lemma pixel_bounds_shape (a f : Q) (W : Z) :
  (0 <= f)%Q -> (f < 360)%Q -> 0 <= W ->
  let start_ := ((a - f / 2) %% 360)%Q in
  let end_ := ((a + f / 2) %% 360)%Q in
  let start_px := to_px start_ W in
  let end_px := to_px end_ W in
  let share := (f / 360 * inject_Z W)%Q in
  ((start_ <= end_)%Q /\ start_px <= end_px /\
   (share - 1 < inject_Z (end_px - start_px))%Q /\
   (inject_Z (end_px - start_px) < share + 1)%Q) \/
  ((end_ < start_)%Q /\ end_px <= start_px /\
   (share - 1 < inject_Z (W - start_px + end_px))%Q /\
   (inject_Z (W - start_px + end_px) < share + 1)%Q).
Proof.
  intros Hf0 Hf1 HW start_ end_ start_px end_px share.
  destruct (mod_360_normalized (a - f / 2)) as [Hs0 Hs1].
  destruct (mod_360_normalized (a + f / 2)) as [He0 He1].
  fold start_ in Hs0, Hs1. fold end_ in He0, He1.
  pose proof (range_shape a f Hf0 Hf1) as Hshape. cbv zeta in Hshape.
  fold start_ end_ in Hshape.
  assert (Es : start_px = Qfloor (start_ / 360 * inject_Z W))
    by (apply to_px_floor; assumption).
  assert (Ee : end_px = Qfloor (end_ / 360 * inject_Z W))
    by (apply to_px_floor; assumption).
  pose proof (Qfloor_bounds (start_ / 360 * inject_Z W)) as [Bs0 Bs1].
  pose proof (Qfloor_bounds (end_ / 360 * inject_Z W)) as [Be0 Be1].
  rewrite <- Es in Bs0, Bs1. rewrite <- Ee in Be0, Be1.
  destruct Hshape as [[Hse E] | [Hes E]]; [left | right].
  - assert (Ex : (end_ / 360 * inject_Z W
                  == start_ / 360 * inject_Z W + share)%Q)
      by (unfold share; rewrite E; field).
    split; [exact Hse |].
    split; [apply to_px_monotone; assumption |].
    rewrite inject_Z_sub. split; lra.
  - assert (Ex : (end_ / 360 * inject_Z W
                  == start_ / 360 * inject_Z W + share - inject_Z W)%Q)
      by (unfold share; rewrite E; field).
    split; [exact Hes |].
    split; [apply to_px_monotone; [assumption | lra | assumption] |].
    rewrite inject_Z_plus, inject_Z_sub. split; lra.
Qed.





(* ================================================================= *)
(** ** A negative field of view, and entities against pixel columns *)



(** X12. Visibility agrees with the columns of the extracted view, up to
    the column at its right end.  For a registered camera with pixel
    bounds [(start_px, end_px)] and a registered entity whose angle falls
    in column [px]: a listed entity has [start_px <= px <= end_px] (or,
    for a range that wraps, [start_px <= px] or [px <= end_px]); and an
    entity with [start_px < px < end_px] (for a range that wraps,
    [start_px < px] or [px < end_px]) is listed. *)
Theorem visible_entities_against_columns
    (calls : list call) (scene name : string)
    (camera : Camera) (position : Position) (width : Z) :
  Dict.get scene (camera_angles (run calls)) = Some camera ->
  Dict.get name (character_positions (run calls)) = Some position ->
  0 <= width ->
  let start_ := fst (visible_range camera) in
  let end_ := snd (visible_range camera) in
  let start_px := fst (pixel_bounds camera width) in
  let end_px := snd (pixel_bounds camera width) in
  let px := to_px (angle position) width in
  let visible := In name (get_visible_characters (run calls) scene) in
  ((start_ <= end_)%Q ->
   (visible -> start_px <= px <= end_px) /\
   (start_px < px < end_px -> visible)) /\
  ((end_ < start_)%Q ->
   (visible -> start_px <= px \/ px <= end_px) /\
   (start_px < px \/ px < end_px -> visible)).
Proof.
  intros Hcam Hpos Hw start_ end_ start_px end_px px visible.
  destruct (run_keys_nodup calls) as [Hnd _].
  pose proof (visible_in _ _ _ _ _ Hnd Hcam Hpos) as Hvis.
  fold start_ end_ visible in Hvis.
  pose proof (registered_camera_ok _ _ _ Hcam) as (_ & [Hs0 _] & [He0 _]).
  simpl in Hs0, He0. fold start_ in Hs0. fold end_ in He0.
  assert (Hc0 : (0 <= angle position)%Q).
  { destruct (run_normalized calls) as [Hall _].
    rewrite Forall_forall in Hall.
    apply (Hall (name, position)). now apply DictFacts.get_in. }
  assert (Hlow : start_px < px -> (start_ <= angle position)%Q).
  { intros Hpx. destruct (Qlt_le_dec (angle position) start_) as [H | H];
      [| exact H].
    pose proof (to_px_monotone _ _ width Hc0 (Qlt_le_weak _ _ H) Hw).
    unfold start_px, pixel_bounds in Hpx; simpl in Hpx. unfold px in Hpx.
    fold start_ in Hpx. lia. }
  assert (Hhigh : px < end_px -> (angle position <= end_)%Q).
  { intros Hpx. destruct (Qlt_le_dec end_ (angle position)) as [H | H];
      [| exact H].
    pose proof (to_px_monotone _ _ width He0 (Qlt_le_weak _ _ H) Hw).
    unfold end_px, pixel_bounds in Hpx; simpl in Hpx. unfold px in Hpx.
    fold end_ in Hpx. lia. }
  assert (Hup : (start_ <= angle position)%Q -> start_px <= px)
    by (intros H; apply to_px_monotone; assumption).
  assert (Hdown : (angle position <= end_)%Q -> px <= end_px)
    by (intros H; apply to_px_monotone; assumption).
  split.
  - intros Hse. rewrite Hvis, (in_view_nowrap _ _ _ Hse).
    split.
    + intros [H1 H2]. split; auto.
    + intros [H1 H2]. split; auto.
  - intros Hes. rewrite Hvis, (in_view_wrap _ _ _ Hes).
    split.
    + intros [H | H]; [left | right]; auto.
    + intros [H | H]; [left | right]; auto.
Qed.

(** In the test session on a panorama of width 100, Alice (angle 180,
    column 50) lies between the pixel bounds (41, 58) of scene_2 and is
    listed. *)
Lemma visible_entities_against_columns_witness :
  In "Alice" (get_visible_characters (run test_calls) "scene_2").
Proof.
  destruct (visible_entities_against_columns test_calls "scene_2" "Alice"
              (mkCamera (180 %% 360) 60
                 ((180 - 60 / 2) %% 360, (180 + 60 / 2) %% 360))%Q
              (mkPosition (180 %% 360) (6 # 10))%Q 100
              eq_refl eq_refl ltac:(lia)) as [Hnowrap _].
  apply Hnowrap.
  - vm_compute. discriminate.
  - vm_compute. split; reflexivity.
Defined.
